(** * Similarity retriever: [find_similar] of [utils/similarity.py]

    A shallow embedding of the retrieval kernel of the question-similarity
    checker and the properties of its specification.

    <<
    def find_similar(query_vec, embeddings, corpus, top_n=5):
        sims = cosine_similarity(query_vec, embeddings).flatten()
        top_indices = sims.argsort()[-top_n:][::-1]
        results = [(corpus[idx], sims[idx]) for idx in top_indices]
        return results
    >>

    Numbers.  Matrix entries are exact rationals ([Q]); rounding is not
    modelled.  A cosine [c] is an irrational number in general, so a score is
    stored as the rational [c * |c|] (its signed square), reduced to lowest
    terms ([RealScores.cosine_real_cosine]).  The map [c |-> c * |c|] is
    strictly increasing and fixes -1, 0 and 1 ([signed_square_increasing]),
    hence comparisons between scores, ties, and the scores 0 and 1.0 are
    those of the cosines themselves.

    Library calls.  [cosine_similarity] follows scikit-learn:
    [check_pairwise_arrays] validates both arguments with [check_array]
    (two-dimensional, at least one row and one column) and compares their
    column counts; both arguments are then normalised row by row, a zero norm
    being replaced by 1 ([_handle_zeros_in_scale]), and multiplied.
    [argsort] follows NumPy: ascending order.  NumPy's default kind sorts runs
    of at most 16 elements by insertion, which keeps equal keys in index
    order; the model is that insertion sort on every length.

    Also embedded: the use the callers [main.py] and [app.py] make of the
    result ([top_match]), and the averaged word-vector embedding
    [get_w2v_embedding] of [embeddings/w2v_embedder.py]. *)

From Stdlib Require Import String List ZArith QArith Qreduction Lia Lqa.
From Stdlib Require Import Sorted Permutation.
From Stdlib Require Reals Qreals Lra.
Import ListNotations.

Local Open Scope Q_scope.

(** ** Exceptions and the error monad *)

Inductive value_error : Type :=
| Inhomogeneous          (* the rows do not form a 2-D array *)
| MinSamples             (* "Found array with 0 sample(s)" *)
| MinFeatures            (* "Found array with 0 feature(s)" *)
| IncompatibleDimension. (* "Incompatible dimension for X and Y matrices" *)

Inductive exn : Type :=
| ValueError (why : value_error)
| IndexError.

Inductive result (A : Type) : Type :=
| Ok (a : A)
| Raise (e : exn).

Arguments Ok {A} a.
Arguments Raise {A} e.

Definition bind {A B : Type} (r : result A) (k : A -> result B) : result B :=
  match r with
  | Ok a => k a
  | Raise e => Raise e
  end.

Notation "x <- e ;; k" := (bind e (fun x => k))
  (at level 61, e at next level, right associativity).

(** A list comprehension [[f(idx) for idx in l]]: elements are evaluated
    left to right and the first exception aborts the whole list. *)
Fixpoint comprehension {A B : Type} (f : A -> result B) (l : list A)
  : result (list B) :=
  match l with
  | [] => Ok []
  | a :: l' => b <- f a ;; bs <- comprehension f l' ;; Ok (b :: bs)
  end.

(** [l[idx]] for a non-negative index. *)
Definition getitem {A : Type} (l : list A) (idx : nat) : result A :=
  match nth_error l idx with
  | Some a => Ok a
  | None => Raise IndexError
  end.

(** [l[start:]] with Python's adjustment of the start index: a negative start
    counts from the end and is clamped to 0, a positive one is clamped to
    the length. *)
Definition slice_from {A : Type} (start : Z) (l : list A) : list A :=
  let n := Z.of_nat (length l) in
  let s := if (start <? 0)%Z then Z.max 0 (start + n) else Z.min start n in
  skipn (Z.to_nat s) l.

(** ** Vectors, matrices and cosine similarity *)

Definition vector := list Q.
Definition matrix := list vector.

Fixpoint dot (u v : vector) : Q :=
  match u, v with
  | x :: u', y :: v' => x * y + dot u' v'
  | _, _ => 0
  end.

(** Squared Euclidean norm of a row ([row_norms(X, squared=True)]). *)
Definition row_norm_sq (v : vector) : Q := dot v v.

(** [_handle_zeros_in_scale]: a zero norm is replaced by 1. *)
Definition handle_zeros_in_scale (n : Q) : Q :=
  if Qeq_bool n 0 then 1 else n.

Definition signed_square (x : Q) : Q :=
  if Qle_bool 0 x then x * x else - (x * x).

(** The cosine of two rows, [dot(u/|u|, v/|v|)] with zero norms replaced
    by 1, as its signed square in lowest terms. *)
Definition cosine (u v : vector) : Q :=
  Qred (signed_square (dot u v)
        / (handle_zeros_in_scale (row_norm_sq u)
           * handle_zeros_in_scale (row_norm_sq v))).

(** The cosine itself, as a real number: [dot(u, v) / (|u| * |v|)] with zero
    norms replaced by 1.  It is used only to state what [cosine] stores
    ([RealScores.cosine_real_cosine]). *)
Definition real_cosine (u v : vector) : Rdefinitions.R :=
  Rdefinitions.Rdiv (Rdefinitions.Q2R (dot u v))
    (Rdefinitions.Rmult
       (R_sqrt.sqrt (Rdefinitions.Q2R (handle_zeros_in_scale (row_norm_sq u))))
       (R_sqrt.sqrt (Rdefinitions.Q2R (handle_zeros_in_scale (row_norm_sq v))))).

Definition shape (a : matrix) : nat * nat :=
  (length a, match a with [] => O | r :: _ => length r end).

Definition homogeneous (a : matrix) : bool :=
  forallb (fun r => Nat.eqb (length r) (snd (shape a))) a.

(** [check_array] with its defaults [ensure_2d], [ensure_min_samples=1] and
    [ensure_min_features=1]. Entries of type [Q] are always finite. *)
Definition check_array (a : matrix) : result matrix :=
  if negb (homogeneous a) then Raise (ValueError Inhomogeneous)
  else if Nat.ltb (fst (shape a)) 1 then Raise (ValueError MinSamples)
  else if Nat.ltb (snd (shape a)) 1 then Raise (ValueError MinFeatures)
  else Ok a.

Definition check_pairwise_arrays (X Y : matrix) : result (matrix * matrix) :=
  X' <- check_array X ;;
  Y' <- check_array Y ;;
  if negb (Nat.eqb (snd (shape X')) (snd (shape Y')))
  then Raise (ValueError IncompatibleDimension)
  else Ok (X', Y').

(** The kernel matrix, one row per row of [X], one column per row of [Y]. *)
Definition cosine_similarity (X Y : matrix) : result (list (list Q)) :=
  XY <- check_pairwise_arrays X Y ;;
  Ok (map (fun x => map (cosine x) (snd XY)) (fst XY)).

Definition flatten (k : list (list Q)) : list Q := concat k.

(** ** argsort *)

(** Entries are (key, index) pairs; [insert] puts an entry in front of the
    first entry whose key is not smaller. *)
Fixpoint insert (x : Q * nat) (l : list (Q * nat)) : list (Q * nat) :=
  match l with
  | [] => [x]
  | y :: l' => if Qle_bool (fst x) (fst y) then x :: l else y :: insert x l'
  end.

Definition insertion_sort (l : list (Q * nat)) : list (Q * nat) :=
  fold_right insert [] l.

Definition enumerate (sims : list Q) : list (Q * nat) :=
  combine sims (seq 0 (length sims)).

Definition argsort (sims : list Q) : list nat :=
  map snd (insertion_sort (enumerate sims)).

(** ** The retriever *)

(** [sims.argsort()[-top_n:][::-1]] *)
Definition top_indices (sims : list Q) (top_n : Z) : list nat :=
  rev (slice_from (- top_n) (argsort sims)).

(** [(corpus[idx], sims[idx])] *)
Definition result_entry (corpus : list string) (sims : list Q) (idx : nat)
  : result (string * Q) :=
  t <- getitem corpus idx ;; s <- getitem sims idx ;; Ok (t, s).

Definition find_similar (query_vec embeddings : matrix) (corpus : list string)
    (top_n : Z) : result (list (string * Q)) :=
  k <- cosine_similarity query_vec embeddings ;;
  let sims := flatten k in
  comprehension (result_entry corpus sims) (top_indices sims top_n).

(** The list of results read off a list of indices. *)
Definition ranked (corpus : list string) (sims : list Q) (ti : list nat)
  : list (string * Q) :=
  map (fun idx => (nth idx corpus EmptyString, nth idx sims 0)) ti.

(** The vector of scores of a one-row query against the rows of [m]. *)
Definition scores (q : vector) (m : matrix) : list Q := map (cosine q) m.

(** A query of dimension D >= 1 and a matrix of N >= 1 rows of dimension D. *)
Definition well_shaped (q : vector) (m : matrix) : Prop :=
  m <> [] /\ q <> [] /\ Forall (fun r => length r = length q) m.

(** Ascending order on (key, index) entries, ties by ascending index. *)
Definition lex_lt (a b : Q * nat) : Prop :=
  fst a < fst b \/ (fst a == fst b /\ (snd a < snd b)%nat).

(** The same order on the indices of a score vector. *)
Definition idx_lt (sims : list Q) (i j : nat) : Prop :=
  nth i sims 0 < nth j sims 0
  \/ (nth i sims 0 == nth j sims 0 /\ (i < j)%nat).


(** The default [top_n=5] in the signature of [find_similar]. *)
Definition default_top_n : Z := 5.

(** The callers, [main.py] and [app.py], for either embedding:
    <<
    results = find_similar(query_vec, embeddings, corpus)
    top_text, top_score = results[0]
    >> *)
Definition top_match (query_vec embeddings : matrix) (corpus : list string)
  : result (string * Q) :=
  results <- find_similar query_vec embeddings corpus default_top_n ;;
  getitem results 0.

(** The number of indices that [[-top_n:]] keeps out of [n]. *)
Definition selected_count (n : nat) (top_n : Z) : nat :=
  if (0 <? top_n)%Z then Z.to_nat (Z.min top_n (Z.of_nat n))
  else (n - Z.to_nat (- top_n))%nat.


(** ** The averaged word-vector embedding ([embeddings/w2v_embedder.py])

    <<
    def get_w2v_embedding(text, model, vector_size=300):
        words = text.split()
        vectors = [model[w] for w in words if w in model]
        if len(vectors) == 0:
            return np.zeros(vector_size)
        return np.mean(vectors, axis=0)
    >>

    A Python string is its list of code points; [model] is a dictionary from
    words to vectors, kept as an association list read from the front;
    [vector_size] is a natural number ([np.zeros] takes no negative size).
    Arithmetic is exact, as for the scores. *)

Definition str := list N.

(** The code points for which [str.isspace] holds; [text.split()] splits at
    runs of them. *)
Definition isspace (c : N) : bool :=
  ((9 <=? c) && (c <=? 13) || (28 <=? c) && (c <=? 32)
   || (c =? 133) || (c =? 160) || (c =? 5760)
   || (8192 <=? c) && (c <=? 8202)
   || (c =? 8232) || (c =? 8233) || (c =? 8239) || (c =? 8287)
   || (c =? 12288))%N.

(** [split_from word text]: the words of [text], where [word] holds, in
    reverse, the characters of the word being read. *)
Fixpoint split_from (word : str) (text : str) : list str :=
  match text with
  | [] => match word with [] => [] | _ => [rev word] end
  | c :: text' =>
      if isspace c
      then match word with
           | [] => split_from [] text'
           | _ => rev word :: split_from [] text'
           end
      else split_from (c :: word) text'
  end.

(** [text.split()] *)
Definition split (text : str) : list str := split_from [] text.

Definition dict := list (str * vector).

(** [model.get(w)]: [Some model[w]] when [w in model]. *)
Fixpoint dict_get (model : dict) (w : str) : option vector :=
  match model with
  | [] => None
  | (k, v) :: model' =>
      if list_eq_dec N.eq_dec k w then Some v else dict_get model' w
  end.

(** [[model[w] for w in words if w in model]] *)
Definition known_vectors (model : dict) (words : list str) : list vector :=
  flat_map (fun w => match dict_get model w with
                     | Some v => [v]
                     | None => []
                     end) words.

(** Entrywise sum of two arrays of the same length. *)
Fixpoint vadd (u v : vector) : vector :=
  match u, v with
  | x :: u', y :: v' => (x + y) :: vadd u' v'
  | _, _ => []
  end.

(** [np.mean([v] + vs, axis=0)] of a non-empty list of one-dimensional
    arrays: arrays of different lengths do not form a 2-D array. *)
Definition mean_axis0 (v : vector) (vs : list vector) : result vector :=
  if forallb (fun u => Nat.eqb (length u) (length v)) vs
  then Ok (map (fun x => x / inject_Z (Z.of_nat (S (length vs))))
             (fold_left vadd vs v))
  else Raise (ValueError Inhomogeneous).

Definition get_w2v_embedding (text : str) (model : dict) (vector_size : nat)
  : result vector :=
  let words := split text in
  let vectors := known_vectors model words in
  match vectors with
  | [] => Ok (repeat 0 vector_size)
  | v :: vs => mean_axis0 v vs
  end.



(** * Lists: slices, comprehensions, sortedness *)

Section ListFacts.
Context {A : Type}.

Lemma slice_from_skipn (start : Z) (l : list A) :
  exists k, slice_from start l = skipn k l.
Proof. unfold slice_from. eexists. reflexivity. Qed.

Lemma slice_from_neg_length (n : Z) (l : list A) :
  (0 < n)%Z ->
  length (slice_from (- n) l) = Z.to_nat (Z.min n (Z.of_nat (length l))).
Proof.
  intros Hn. unfold slice_from.
  destruct (- n <? 0)%Z eqn:E; [|apply Z.ltb_ge in E; lia].
  rewrite length_skipn. lia.
Qed.

Lemma slice_from_zero (l : list A) : slice_from 0 l = l.
Proof. unfold slice_from. simpl. rewrite Z.min_l by lia. reflexivity. Qed.

Lemma slice_from_neg_all (n : Z) (l : list A) :
  (Z.of_nat (length l) <= n)%Z -> slice_from (- n) l = l.
Proof.
  intros Hn. unfold slice_from.
  destruct (- n <? 0)%Z eqn:E.
  - rewrite Z.max_l by lia. reflexivity.
  - apply Z.ltb_ge in E. rewrite Z.min_l by lia.
    assert (Z.to_nat (- n) = 0%nat) as -> by lia. reflexivity.
Qed.

Lemma slice_from_incl (start : Z) (l : list A) (a : A) :
  In a (slice_from start l) -> In a l.
Proof.
  destruct (slice_from_skipn start l) as [k ->]. intros H.
  rewrite <- (firstn_skipn k l). apply in_or_app. now right.
Qed.

Lemma StronglySorted_skipn (R : A -> A -> Prop) (k : nat) (l : list A) :
  StronglySorted R l -> StronglySorted R (skipn k l).
Proof.
  revert l. induction k as [|k IH]; intros l H; [exact H|].
  destruct l as [|a l]; [constructor|].
  simpl. apply IH. now apply StronglySorted_inv in H.
Qed.

Lemma StronglySorted_app_one (R : A -> A -> Prop) (l : list A) (a : A) :
  StronglySorted R l -> Forall (fun x => R x a) l ->
  StronglySorted R (l ++ [a]).
Proof.
  induction l as [|b l IH]; intros Hs Hf; simpl.
  - repeat constructor.
  - apply StronglySorted_inv in Hs as [Hs Hb].
    apply Forall_cons_iff in Hf as [Hba Hf].
    constructor; [now apply IH|].
    apply Forall_app. split; [exact Hb|now constructor].
Qed.

Lemma StronglySorted_rev (R : A -> A -> Prop) (l : list A) :
  StronglySorted R l -> StronglySorted (fun x y => R y x) (rev l).
Proof.
  induction 1 as [|a l Hs IH Hf]; simpl; [constructor|].
  apply StronglySorted_app_one; [exact IH|].
  apply Forall_rev. exact Hf.
Qed.

Lemma StronglySorted_nth (R : A -> A -> Prop) (l : list A) (d : A) :
  StronglySorted R l ->
  forall i j, (i < j < length l)%nat -> R (nth i l d) (nth j l d).
Proof.
  induction 1 as [|a l Hs IH Hf]; intros i j Hij; simpl in *; [lia|].
  destruct j as [|j]; [lia|]. destruct i as [|i].
  - rewrite Forall_forall in Hf. apply Hf. apply nth_In. lia.
  - apply IH. lia.
Qed.

Lemma StronglySorted_map {B : Type} (R : A -> A -> Prop)
    (R' : B -> B -> Prop) (f : A -> B) (l : list A) :
  (forall a b, In a l -> In b l -> R a b -> R' (f a) (f b)) ->
  StronglySorted R l -> StronglySorted R' (map f l).
Proof.
  intros Hf Hs. induction Hs as [|a l Hs IH Ha]; simpl; [constructor|].
  constructor.
  - apply IH. intros x y Hx Hy. apply Hf; now right.
  - rewrite Forall_forall in *. intros b Hb.
    apply in_map_iff in Hb as [x [<- Hx]].
    apply Hf; [now left|now right|now apply Ha].
Qed.

Lemma comprehension_ok {B : Type} (f : A -> result B) (g : A -> B)
    (l : list A) :
  (forall a, In a l -> f a = Ok (g a)) ->
  comprehension f l = Ok (map g l).
Proof.
  induction l as [|a l IH]; intros H; simpl; [reflexivity|].
  rewrite (H a) by now left. simpl.
  rewrite IH by (intros x Hx; apply H; now right). reflexivity.
Qed.

Lemma comprehension_ok_inv {B : Type} (f : A -> result B) (g : A -> B)
    (l : list A) (bs : list B) :
  (forall a b, f a = Ok b -> b = g a) ->
  comprehension f l = Ok bs ->
  bs = map g l /\ forall a, In a l -> f a = Ok (g a).
Proof.
  intros Hg. revert bs. induction l as [|a l IH]; intros bs; simpl.
  - intros [= <-]. split; [reflexivity|easy].
  - destruct (f a) as [b|e] eqn:Ea; simpl; [|discriminate].
    destruct (comprehension f l) as [bs'|e]; simpl; [|discriminate].
    intros [= <-]. destruct (IH bs' eq_refl) as [-> Hl].
    pose proof (Hg a b Ea) as ->.
    split; [reflexivity|]. intros x [<-|Hx]; [exact Ea|now apply Hl].
Qed.

Lemma comprehension_raise {B : Type} (f : A -> result B) (l : list A)
    (e : exn) :
  comprehension f l = Raise e -> exists a, In a l /\ f a = Raise e.
Proof.
  induction l as [|a l IH]; simpl; [discriminate|].
  destruct (f a) as [b|e'] eqn:Ea; simpl.
  - destruct (comprehension f l) as [bs|e'']; simpl; [discriminate|].
    intros [= ->]. destruct IH as [x [Hx Hfx]]; [reflexivity|].
    exists x. split; [now right|exact Hfx].
  - intros [= ->]. exists a. split; [now left|exact Ea].
Qed.
End ListFacts.

(** * The stable ascending sort *)

Lemma insert_perm (x : Q * nat) (l : list (Q * nat)) :
  Permutation (insert x l) (x :: l).
Proof.
  induction l as [|y l IH]; simpl; [reflexivity|].
  destruct (Qle_bool (fst x) (fst y)); [reflexivity|].
  rewrite IH. apply perm_swap.
Qed.

Lemma insertion_sort_perm (l : list (Q * nat)) :
  Permutation (insertion_sort l) l.
Proof.
  induction l as [|x l IH]; simpl; [reflexivity|].
  rewrite insert_perm. now constructor.
Qed.

Lemma lex_lt_of_le (x z : Q * nat) :
  fst x <= fst z -> (snd x < snd z)%nat -> lex_lt x z.
Proof.
  intros Hle Hlt. unfold lex_lt.
  destruct (Qlt_le_dec (fst x) (fst z)) as [H|H]; [now left|].
  right. split; [now apply Qle_antisym|exact Hlt].
Qed.

Lemma lex_lt_fst_le (y z : Q * nat) : lex_lt y z -> fst y <= fst z.
Proof.
  intros [H|[H _]]; [now apply Qlt_le_weak|]. rewrite H. apply Qle_refl.
Qed.

Lemma insert_sorted (x : Q * nat) (l : list (Q * nat)) :
  StronglySorted lex_lt l ->
  Forall (fun y => (snd x < snd y)%nat) l ->
  StronglySorted lex_lt (insert x l).
Proof.
  induction l as [|y l IH]; intros Hs Hf; simpl.
  - repeat constructor.
  - pose proof Hs as Hs0.
    apply StronglySorted_inv in Hs as [Hs Hy].
    pose proof Hf as Hf0.
    apply Forall_cons_iff in Hf as [Hxy Hf].
    destruct (Qle_bool (fst x) (fst y)) eqn:E.
    + apply Qle_bool_iff in E. constructor; [exact Hs0|].
      constructor; [now apply lex_lt_of_le|].
      rewrite Forall_forall in *. intros z Hz.
      apply lex_lt_of_le; [|now apply Hf].
      apply Qle_trans with (fst y); [exact E|].
      apply lex_lt_fst_le. now apply Hy.
    + assert (fst y < fst x) as Hlt.
      { apply Qnot_le_lt. intros H. apply Qle_bool_iff in H. congruence. }
      constructor; [now apply IH|].
      apply (Permutation_Forall (Permutation_sym (insert_perm x l))).
      constructor; [now left|exact Hy].
Qed.

(** Entries of an enumeration starting at [a]. *)
Lemma combine_seq_In (sims : list Q) (a : nat) (x : Q) (i : nat) :
  In (x, i) (combine sims (seq a (length sims))) ->
  (a <= i)%nat /\ nth_error sims (i - a) = Some x.
Proof.
  revert a. induction sims as [|y sims IH]; intros a H; simpl in H; [easy|].
  destruct H as [[= -> ->]|H].
  - split; [lia|]. now rewrite Nat.sub_diag.
  - apply IH in H as [Hle Hn]. split; [lia|].
    replace (i - a)%nat with (S (i - S a)) by lia. exact Hn.
Qed.

Lemma insertion_sort_combine_sorted (sims : list Q) (a : nat) :
  StronglySorted lex_lt (insertion_sort (combine sims (seq a (length sims)))).
Proof.
  revert a. induction sims as [|y sims IH]; intros a; simpl; [constructor|].
  apply insert_sorted; [apply IH|].
  apply (Permutation_Forall (Permutation_sym (insertion_sort_perm _))).
  rewrite Forall_forall. intros [x i] Hin.
  apply combine_seq_In in Hin. simpl. lia.
Qed.

Lemma enumerate_In (sims : list Q) (x : Q) (i : nat) :
  In (x, i) (insertion_sort (enumerate sims)) -> nth_error sims i = Some x.
Proof.
  intros H. apply (Permutation_in _ (insertion_sort_perm _)) in H.
  apply combine_seq_In in H as [_ H]. now rewrite Nat.sub_0_r in H.
Qed.

Lemma combine_seq_indices (sims : list Q) (a : nat) :
  map snd (combine sims (seq a (length sims))) = seq a (length sims).
Proof.
  revert a. induction sims as [|y sims IH]; intros a; simpl; [reflexivity|].
  now rewrite IH.
Qed.

Lemma argsort_perm (sims : list Q) :
  Permutation (argsort sims) (seq 0 (length sims)).
Proof.
  unfold argsort. rewrite insertion_sort_perm. unfold enumerate.
  now rewrite combine_seq_indices.
Qed.

Lemma argsort_length (sims : list Q) : length (argsort sims) = length sims.
Proof. rewrite (Permutation_length (argsort_perm sims)). apply length_seq. Qed.

Lemma argsort_In (sims : list Q) (i : nat) :
  In i (argsort sims) <-> (i < length sims)%nat.
Proof.
  split; intros H.
  - apply (Permutation_in _ (argsort_perm sims)) in H.
    apply in_seq in H. lia.
  - apply (Permutation_in _ (Permutation_sym (argsort_perm sims))).
    apply in_seq. lia.
Qed.

(** [argsort] is ascending, and equal scores keep their index order. *)
Lemma argsort_sorted (sims : list Q) :
  StronglySorted (idx_lt sims) (argsort sims).
Proof.
  unfold argsort.
  apply StronglySorted_map with (R := lex_lt);
    [|apply insertion_sort_combine_sorted].
  intros [x i] [y j] Hx Hy H.
  apply enumerate_In in Hx, Hy. unfold idx_lt. simpl.
  rewrite (nth_error_nth _ _ _ Hx), (nth_error_nth _ _ _ Hy). exact H.
Qed.

(** * Validation and the score vector *)

Lemma homogeneous_spec (a : matrix) :
  homogeneous a = true <-> Forall (fun r => length r = snd (shape a)) a.
Proof.
  unfold homogeneous. rewrite forallb_forall, Forall_forall.
  split; intros H r Hr; apply Nat.eqb_eq, H, Hr.
Qed.

Lemma check_array_ok (a : matrix) :
  a <> [] -> (0 < snd (shape a))%nat ->
  Forall (fun r => length r = snd (shape a)) a ->
  check_array a = Ok a.
Proof.
  intros Ha Hd Hf. unfold check_array.
  apply homogeneous_spec in Hf. rewrite Hf. simpl.
  destruct a as [|r a]; [congruence|]. simpl in *.
  destruct (length r); [lia|reflexivity].
Qed.

Lemma check_array_inv (a b : matrix) :
  check_array a = Ok b ->
  b = a /\ a <> [] /\ (0 < snd (shape a))%nat
  /\ Forall (fun r => length r = snd (shape a)) a.
Proof.
  unfold check_array.
  destruct (homogeneous a) eqn:Eh; cbn [negb]; [|discriminate].
  destruct (Nat.ltb (fst (shape a)) 1) eqn:En; [discriminate|].
  destruct (Nat.ltb (snd (shape a)) 1) eqn:Ed; [discriminate|].
  intros [= <-]. apply Nat.ltb_ge in En, Ed.
  repeat split; [|exact Ed|now apply homogeneous_spec].
  intros ->. simpl in En. lia.
Qed.

Lemma check_array_value_error (a : matrix) (e : exn) :
  check_array a = Raise e -> exists why, e = ValueError why.
Proof.
  unfold check_array.
  repeat match goal with
         | |- context [if ?b then _ else _] => destruct b
         end; intros [= <-]; eauto.
Qed.

Lemma cosine_similarity_value_error (X Y : matrix) (e : exn) :
  cosine_similarity X Y = Raise e -> exists why, e = ValueError why.
Proof.
  unfold cosine_similarity, check_pairwise_arrays.
  destruct (check_array X) as [X'|e1] eqn:EX; simpl;
    [|intros [= <-]; eapply check_array_value_error; eauto].
  destruct (check_array Y) as [Y'|e2] eqn:EY; simpl;
    [|intros [= <-]; eapply check_array_value_error; eauto].
  destruct (negb _); simpl; [intros [= <-]; eauto|discriminate].
Qed.

Lemma cosine_similarity_one_row (q : vector) (m : matrix) :
  well_shaped q m -> cosine_similarity [q] m = Ok [scores q m].
Proof.
  intros (Hm & Hq & Hf).
  assert (snd (shape m) = length q) as Hd.
  { destruct m as [|r m]; [congruence|]. simpl.
    now apply Forall_inv in Hf. }
  assert (0 < length q)%nat as Hlen by (destruct q; [congruence|simpl; lia]).
  assert (check_array [q] = Ok [q]) as EX.
  { apply check_array_ok; [discriminate|exact Hlen|now constructor]. }
  assert (check_array m = Ok m) as EY.
  { apply check_array_ok; rewrite ?Hd; assumption. }
  unfold cosine_similarity, check_pairwise_arrays.
  rewrite EX, EY. cbn [bind]. rewrite Hd. cbn [shape snd].
  rewrite Nat.eqb_refl. reflexivity.
Qed.

Lemma cosine_similarity_one_row_inv (q : vector) (m : matrix)
    (k : list (list Q)) :
  cosine_similarity [q] m = Ok k -> well_shaped q m /\ k = [scores q m].
Proof.
  intros H. assert (well_shaped q m) as Hw.
  { unfold cosine_similarity, check_pairwise_arrays in H.
    destruct (check_array [q]) as [X'|] eqn:EX; simpl in H; [|discriminate].
    destruct (check_array m) as [Y'|] eqn:EY; simpl in H; [|discriminate].
    apply check_array_inv in EX as (-> & _ & Hq & _).
    apply check_array_inv in EY as (-> & Hm & _ & Hf).
    destruct (Nat.eqb _ _) eqn:E; simpl in H; [|discriminate].
    apply Nat.eqb_eq in E. simpl in E, Hq.
    repeat split; [exact Hm| |now rewrite E].
    intros ->. simpl in Hq. lia. }
  split; [exact Hw|].
  rewrite (cosine_similarity_one_row _ _ Hw) in H. congruence.
Qed.

Lemma flatten_one_row (sims : list Q) : flatten [sims] = sims.
Proof. unfold flatten. simpl. apply app_nil_r. Qed.

Lemma scores_length (q : vector) (m : matrix) :
  length (scores q m) = length m.
Proof. apply length_map. Qed.

(** * The selected indices *)

Lemma top_indices_In (sims : list Q) (top_n : Z) (idx : nat) :
  In idx (top_indices sims top_n) -> (idx < length sims)%nat.
Proof.
  unfold top_indices. intros H. apply in_rev in H.
  apply slice_from_incl in H. now apply argsort_In.
Qed.

Lemma top_indices_length (sims : list Q) (top_n : Z) :
  (0 < top_n)%Z ->
  length (top_indices sims top_n)
  = Z.to_nat (Z.min top_n (Z.of_nat (length sims))).
Proof.
  intros H. unfold top_indices.
  now rewrite length_rev, slice_from_neg_length, argsort_length.
Qed.

(** Descending order, and among equal scores descending index. *)
Lemma top_indices_sorted (sims : list Q) (top_n : Z) :
  StronglySorted (fun i j => idx_lt sims j i) (top_indices sims top_n).
Proof.
  unfold top_indices. apply StronglySorted_rev.
  destruct (slice_from_skipn (- top_n) (argsort sims)) as [k ->].
  apply StronglySorted_skipn, argsort_sorted.
Qed.

(** * Unfolding [find_similar] on a one-row query *)

Lemma result_entry_ok (corpus : list string) (sims : list Q) (idx : nat) :
  (idx < length corpus)%nat -> (idx < length sims)%nat ->
  result_entry corpus sims idx
  = Ok (nth idx corpus EmptyString, nth idx sims 0).
Proof.
  intros Hc Hs. unfold result_entry, getitem.
  destruct (nth_error corpus idx) as [t|] eqn:Et;
    [|apply nth_error_None in Et; lia].
  destruct (nth_error sims idx) as [x|] eqn:Ex;
    [|apply nth_error_None in Ex; lia].
  simpl. now rewrite (nth_error_nth _ _ _ Et), (nth_error_nth _ _ _ Ex).
Qed.

Lemma result_entry_inv (corpus : list string) (sims : list Q) (idx : nat)
    (p : string * Q) :
  result_entry corpus sims idx = Ok p ->
  p = (nth idx corpus EmptyString, nth idx sims 0)
  /\ (idx < length corpus)%nat.
Proof.
  unfold result_entry, getitem.
  destruct (nth_error corpus idx) as [t|] eqn:Et; simpl; [|discriminate].
  destruct (nth_error sims idx) as [x|] eqn:Ex; simpl; [|discriminate].
  intros [= <-].
  rewrite (nth_error_nth _ _ _ Et), (nth_error_nth _ _ _ Ex).
  split; [reflexivity|]. apply nth_error_Some. congruence.
Qed.

Lemma result_entry_raise (corpus : list string) (sims : list Q) (idx : nat)
    (e : exn) :
  result_entry corpus sims idx = Raise e -> e = IndexError.
Proof.
  unfold result_entry, getitem.
  destruct (nth_error corpus idx); simpl; [|congruence].
  destruct (nth_error sims idx); simpl; congruence.
Qed.

Lemma find_similar_unfold (q : vector) (m : matrix) (corpus : list string)
    (top_n : Z) :
  well_shaped q m ->
  find_similar [q] m corpus top_n
  = comprehension (result_entry corpus (scores q m))
      (top_indices (scores q m) top_n).
Proof.
  intros Hw. unfold find_similar.
  rewrite (cosine_similarity_one_row _ _ Hw). cbn [bind].
  now rewrite flatten_one_row.
Qed.

(** A well-shaped call whose selected indices all fall inside the corpus
    returns the ranked list. *)
Lemma find_similar_ok (q : vector) (m : matrix) (corpus : list string)
    (top_n : Z) :
  well_shaped q m ->
  (forall idx, In idx (top_indices (scores q m) top_n) ->
               (idx < length corpus)%nat) ->
  find_similar [q] m corpus top_n
  = Ok (ranked corpus (scores q m) (top_indices (scores q m) top_n)).
Proof.
  intros Hw Hc. rewrite find_similar_unfold by exact Hw.
  apply comprehension_ok. intros idx Hin.
  apply result_entry_ok; [now apply Hc|now apply top_indices_In in Hin].
Qed.

Lemma find_similar_inv (q : vector) (m : matrix) (corpus : list string)
    (top_n : Z) (res : list (string * Q)) :
  find_similar [q] m corpus top_n = Ok res ->
  well_shaped q m
  /\ res = ranked corpus (scores q m) (top_indices (scores q m) top_n)
  /\ forall idx, In idx (top_indices (scores q m) top_n) ->
                 (idx < length corpus)%nat.
Proof.
  intros H. assert (well_shaped q m) as Hw.
  { unfold find_similar in H.
    destruct (cosine_similarity [q] m) as [k|] eqn:Ek; [|discriminate].
    now apply cosine_similarity_one_row_inv in Ek. }
  split; [exact Hw|]. rewrite find_similar_unfold in H by exact Hw.
  apply comprehension_ok_inv
    with (g := fun idx => (nth idx corpus EmptyString,
                           nth idx (scores q m) 0)) in H.
  - destruct H as [-> Hall]. split; [reflexivity|].
    intros idx Hin. now apply Hall, result_entry_inv in Hin.
  - intros idx p Hp. now apply result_entry_inv in Hp.
Qed.

(** * Arithmetic of the scores *)

Lemma sq_nonneg (a : Q) : 0 <= a * a.
Proof. nra. Qed.

Lemma sq_lt (a b : Q) : 0 <= a -> a < b -> a * a < b * b.
Proof. intros Ha Hab. nra. Qed.

(** The stored score is a strictly increasing function of the cosine. *)
Lemma signed_square_increasing (x y : Q) :
  x < y -> signed_square x < signed_square y.
Proof.
  intros Hxy. unfold signed_square.
  destruct (Qle_bool 0 x) eqn:Ex; destruct (Qle_bool 0 y) eqn:Ey.
  - apply Qle_bool_iff in Ex. now apply sq_lt.
  - apply Qle_bool_iff in Ex.
    assert (~ 0 <= y) as Hy by (rewrite <- Qle_bool_iff; congruence).
    exfalso. apply Hy. lra.
  - assert (~ 0 <= x) as Hx by (rewrite <- Qle_bool_iff; congruence).
    apply Qnot_le_lt in Hx.
    assert (0 <= - x) as Hx' by lra.
    pose proof (sq_nonneg y) as Hy.
    assert (0 < (- x) * (- x)) as Hp.
    { apply Qmult_lt_0_compat; lra. }
    ring_simplify in Hp. ring_simplify. lra.
  - assert (~ 0 <= y) as Hy by (rewrite <- Qle_bool_iff; congruence).
    apply Qnot_le_lt in Hy.
    assert (0 <= - y) as Hy' by lra.
    assert (- y < - x) as Hlt by lra.
    pose proof (sq_lt _ _ Hy' Hlt) as Hs.
    ring_simplify in Hs. lra.
Qed.

Lemma signed_square_fixed :
  signed_square 0 == 0 /\ signed_square 1 == 1 /\ signed_square (-1) == -1.
Proof. repeat split. Qed.



Lemma row_norm_sq_nonneg (v : vector) : 0 <= row_norm_sq v.
Proof.
  unfold row_norm_sq. induction v as [|x v IH]; simpl; [apply Qle_refl|].
  pose proof (sq_nonneg x). lra.
Qed.






Lemma handle_zeros_in_scale_pos (n : Q) :
  0 <= n -> 0 < handle_zeros_in_scale n /\ n <= handle_zeros_in_scale n.
Proof.
  intros Hn. unfold handle_zeros_in_scale.
  destruct (Qeq_bool n 0) eqn:E.
  - apply Qeq_bool_iff in E. rewrite E. split; lra.
  - apply Qeq_bool_neq in E. split; [|apply Qle_refl].
    apply Qle_lt_or_eq in Hn as [H|H]; [exact H|]. symmetry in H. tauto.
Qed.







(** The stored score is the signed square of the real cosine. *)
Module RealScores.
Import Reals Qreals Lra.
Local Open Scope R_scope.

Lemma Q2R_signed_square (x : Q) :
  Q2R (signed_square x) = Q2R x * Rabs (Q2R x).
Proof.
  unfold signed_square. destruct (Qle_bool 0 x) eqn:E.
  - apply Qle_bool_iff, Qle_Rle in E. rewrite RMicromega.Q2R_0 in E.
    rewrite Q2R_mult, Rabs_pos_eq by exact E. reflexivity.
  - assert (~ (0 <= x)%Q) as H by (rewrite <- Qle_bool_iff; congruence).
    apply Qnot_le_lt, Qlt_Rlt in H. rewrite RMicromega.Q2R_0 in H.
    rewrite Q2R_opp, Q2R_mult, Rabs_left by exact H. ring.
Qed.

Lemma cosine_real_cosine (u v : vector) :
  Q2R (cosine u v) = real_cosine u v * Rabs (real_cosine u v).
Proof.
  unfold cosine, real_cosine.
  destruct (handle_zeros_in_scale_pos _ (row_norm_sq_nonneg u)) as [Hu _].
  destruct (handle_zeros_in_scale_pos _ (row_norm_sq_nonneg v)) as [Hv _].
  set (a := handle_zeros_in_scale (row_norm_sq u)) in *.
  set (b := handle_zeros_in_scale (row_norm_sq v)) in *.
  rewrite (Qeq_eqR _ _ (Qred_correct _)).
  assert (~ (a * b == 0)%Q) as Hab.
  { intros H. apply Qmult_integral in H as [H|H]; rewrite H in *;
      now apply Qlt_irrefl in Hu || now apply Qlt_irrefl in Hv. }
  rewrite Q2R_div, Q2R_mult, Q2R_signed_square by exact Hab.
  apply Qlt_Rlt in Hu, Hv. rewrite RMicromega.Q2R_0 in Hu, Hv.
  pose proof (sqrt_lt_R0 _ Hu) as Hsa. pose proof (sqrt_lt_R0 _ Hv) as Hsb.
  pose proof (sqrt_sqrt _ (Rlt_le _ _ Hu)) as Ea.
  pose proof (sqrt_sqrt _ (Rlt_le _ _ Hv)) as Eb.
  set (sa := sqrt (Q2R a)) in *. set (sb := sqrt (Q2R b)) in *.
  assert (0 < sa * sb) as Hp by now apply Rmult_lt_0_compat.
  unfold Rdiv at 3. rewrite Rabs_mult, (Rabs_pos_eq (/ _))
    by (left; now apply Rinv_0_lt_compat).
  rewrite <- Ea, <- Eb. field. split; lra.
Qed.

End RealScores.

Lemma scores_nth (q : vector) (m : matrix) (idx : nat) :
  (idx < length m)%nat -> nth idx (scores q m) 0 = cosine q (nth idx m []).
Proof.
  intros H. unfold scores.
  rewrite nth_indep with (d' := cosine q []) by now rewrite length_map.
  apply (map_nth (cosine q)).
Qed.

(** * Properties of the ranked list *)

Lemma ranked_length (corpus : list string) (sims : list Q) (ti : list nat) :
  length (ranked corpus sims ti) = length ti.
Proof. apply length_map. Qed.

Lemma ranked_nth (corpus : list string) (sims : list Q) (ti : list nat)
    (i : nat) (d : string * Q) :
  (i < length ti)%nat ->
  nth i (ranked corpus sims ti) d
  = (nth (nth i ti O) corpus EmptyString, nth (nth i ti O) sims 0).
Proof.
  intros Hi. unfold ranked.
  set (f := fun idx => (nth idx corpus EmptyString, nth idx sims 0)).
  rewrite nth_indep with (d' := f O) by now rewrite length_map.
  apply (map_nth f).
Qed.

Lemma idx_lt_le (sims : list Q) (i j : nat) :
  idx_lt sims i j -> nth i sims 0 <= nth j sims 0.
Proof.
  intros [H|[H _]]; [now apply Qlt_le_weak|]. rewrite H. apply Qle_refl.
Qed.

(** Scores along the ranked list of the selected indices never increase. *)
Lemma ranked_nonincreasing (corpus : list string) (sims : list Q)
    (top_n : Z) (d : string * Q) (i j : nat) :
  (i < j < length (top_indices sims top_n))%nat ->
  snd (nth j (ranked corpus sims (top_indices sims top_n)) d)
  <= snd (nth i (ranked corpus sims (top_indices sims top_n)) d).
Proof.
  intros Hij. rewrite !ranked_nth by lia. simpl.
  apply idx_lt_le.
  apply (StronglySorted_nth _ _ O (top_indices_sorted sims top_n) i j Hij).
Qed.

Lemma ranked_seq (corpus : list string) (sims : list Q) :
  length corpus = length sims ->
  ranked corpus sims (seq 0 (length sims)) = combine corpus sims.
Proof.
  intros Hlen.
  apply nth_ext with (d := (EmptyString, 0)) (d' := (EmptyString, 0)).
  - rewrite ranked_length, length_seq, length_combine. lia.
  - intros i Hi. rewrite ranked_length, length_seq in Hi.
    rewrite ranked_nth by now rewrite length_seq.
    rewrite seq_nth by exact Hi. simpl.
    now rewrite combine_nth.
Qed.

Local Open Scope string_scope.
Local Open Scope list_scope.

(** * The top entry *)




(** * Properties of the specification *)




(** C2: on a valid input (a well-shaped query and matrix, an aligned corpus)
    [find_similar] returns, and whenever it returns the scores of adjacent
    results satisfy [result[i].score >= result[i+1].score]. *)
Theorem find_similar_scores_nonincreasing (q : vector) (m : matrix)
    (corpus : list string) (top_n : Z) (d : string * Q) :
  (well_shaped q m -> length corpus = length m ->
   exists res, find_similar [q] m corpus top_n = Ok res)
  /\ forall res, find_similar [q] m corpus top_n = Ok res ->
       forall i, (S i < length res)%nat ->
         snd (nth (S i) res d) <= snd (nth i res d).
Proof.
  split.
  - intros Hw Hc. eexists. apply find_similar_ok; [exact Hw|].
    intros idx Hin. apply top_indices_In in Hin.
    rewrite scores_length in Hin. lia.
  - intros res H i Hi. apply find_similar_inv in H as (_ & -> & _).
    rewrite ranked_length in Hi. apply ranked_nonincreasing. lia.
Qed.

Lemma find_similar_scores_nonincreasing_witness :
  (exists res,
     find_similar [[1; 0]] [[1; 0]; [0; 1]; [1; 1]] ["a"; "b"; "c"] 3 = Ok res)
  /\ snd (nth 1 [("a", 1); ("c", 1 # 2); ("b", 0)] ("", 0))
     <= snd (nth 0 [("a", 1); ("c", 1 # 2); ("b", 0)] ("", 0)).
Proof.
  destruct (find_similar_scores_nonincreasing
              [1; 0] [[1; 0]; [0; 1]; [1; 1]] ["a"; "b"; "c"] 3 ("", 0))
    as [Hret Hsorted].
  split.
  - apply Hret; [|reflexivity].
    repeat split; [discriminate|discriminate|repeat constructor].
  - apply (Hsorted [("a", 1); ("c", 1 # 2); ("b", 0)]);
      [reflexivity|simpl; lia].
Defined.




(** C4 fails: a corpus whose length differs from the row count is not
    rejected. *)
Lemma find_similar_long_corpus_accepted :
  length ["a"; "b"] <> length [[1; 0]]
  /\ find_similar [[1; 0]] [[1; 0]] ["a"; "b"] 1 = Ok [("a", 1)]
  /\ ~ exists e, find_similar [[1; 0]] [[1; 0]] ["a"; "b"] 1 = Raise e.
Proof.
  split; [discriminate|]. split; [reflexivity|].
  intros [e H]. discriminate H.
Qed.

(** C4 (amended): against a matrix of N >= 1 rows of dimension D >= 1,
    a non-empty query whose dimension differs from D fails with the
    dimension-mismatch [ValueError]. The length of the corpus is never
    compared with N: when the query has dimension D, the call returns as soon
    as every selected index lies inside the corpus, in particular when the
    corpus has at least N texts, and it fails with an [IndexError] when some
    selected index lies outside. *)
Theorem find_similar_shape_errors (q : vector) (m : matrix)
    (corpus : list string) (top_n : Z) :
  m <> [] -> q <> [] -> (0 < snd (shape m))%nat ->
  Forall (fun r => length r = snd (shape m)) m ->
  (length q <> snd (shape m) ->
   find_similar [q] m corpus top_n = Raise (ValueError IncompatibleDimension))
  /\ (length q = snd (shape m) ->
      ((forall idx, In idx (top_indices (scores q m) top_n) ->
                    (idx < length corpus)%nat) ->
       exists res, find_similar [q] m corpus top_n = Ok res)
      /\ ((length m <= length corpus)%nat ->
          exists res, find_similar [q] m corpus top_n = Ok res)
      /\ ((exists idx, In idx (top_indices (scores q m) top_n)
                       /\ (length corpus <= idx)%nat) ->
          find_similar [q] m corpus top_n = Raise IndexError)).
Proof.
  intros Hm Hq HD Hrect.
  assert (0 < length q)%nat as Hlen by (destruct q; [congruence|simpl; lia]).
  split.
  - intros Hne. unfold find_similar, cosine_similarity, check_pairwise_arrays.
    rewrite (check_array_ok [q]);
      [|discriminate|exact Hlen|now constructor].
    rewrite (check_array_ok m Hm HD Hrect). cbn [bind shape snd].
    apply Nat.eqb_neq in Hne. unfold shape in Hne. cbn [snd] in Hne.
    now rewrite Hne.
  - intros Heq.
    assert (well_shaped q m) as Hw.
    { repeat split; [exact Hm|exact Hq|now rewrite Heq]. }
    split; [|split].
    + intros Hin. eexists. now apply find_similar_ok.
    + intros Hc. eexists. apply find_similar_ok; [exact Hw|].
      intros idx Hin. apply top_indices_In in Hin.
      rewrite scores_length in Hin. lia.
    + intros (idx & Hin & Hout).
      destruct (find_similar [q] m corpus top_n) as [res|e] eqn:E.
      * apply find_similar_inv in E as (_ & _ & Hall).
        apply Hall in Hin. lia.
      * rewrite find_similar_unfold in E by exact Hw.
        apply comprehension_raise in E as (a & _ & Ea).
        now apply result_entry_raise in Ea as ->.
Qed.

Lemma find_similar_shape_errors_witness :
  find_similar [[1; 0]] [[1; 0; 0]; [0; 1; 0]] ["a"; "b"] 1
  = Raise (ValueError IncompatibleDimension)
  /\ (exists res,
        find_similar [[1; 0]] [[1; 0]; [0; 1]] ["a"; "b"; "c"] 1 = Ok res)
  /\ find_similar [[0; 1]] [[1; 0]; [0; 1]] ["a"] 1 = Raise IndexError.
Proof.
  split; [|split].
  - apply (find_similar_shape_errors
             [1; 0] [[1; 0; 0]; [0; 1; 0]] ["a"; "b"] 1);
      try discriminate; [simpl; lia|repeat constructor].
  - apply (find_similar_shape_errors
             [1; 0] [[1; 0]; [0; 1]] ["a"; "b"; "c"] 1);
      try discriminate; [simpl; lia|repeat constructor|reflexivity|simpl; lia].
  - apply (find_similar_shape_errors [0; 1] [[1; 0]; [0; 1]] ["a"] 1);
      try discriminate; [simpl; lia|repeat constructor|reflexivity|].
    exists 1%nat. split; [now left|simpl; lia].
Defined.

(** C5 fails: with an empty matrix and no texts the call raises instead of
    returning the empty sequence. *)
Lemma find_similar_empty_corpus_not_empty_result :
  find_similar [[1; 0]] [] [] 5 <> Ok [].
Proof. discriminate. Qed.

(** C5 (amended): with an empty embedding matrix (N = 0) [find_similar]
    raises a [ValueError], whatever the query, the corpus and [top_n] are:
    [cosine_similarity] requires at least one row. *)
Theorem find_similar_empty_matrix_raises (query_vec : matrix)
    (corpus : list string) (top_n : Z) :
  exists why, find_similar query_vec [] corpus top_n = Raise (ValueError why).
Proof.
  unfold find_similar.
  destruct (cosine_similarity query_vec []) as [k|e] eqn:E.
  - exfalso. unfold cosine_similarity, check_pairwise_arrays in E.
    destruct (check_array query_vec); simpl in E; discriminate.
  - apply cosine_similarity_value_error in E as [why ->].
    exists why. reflexivity.
Qed.

(** C6, at [top_n = 0] and at [top_n = -1]: the call neither fails nor
    returns an empty list; [sims.argsort()[-0:]] is the whole array and
    [sims.argsort()[1:]] drops only the lowest score. *)
Theorem find_similar_nonpositive_top_n_nonempty :
  find_similar [[1; 0]] [[1; 0]; [0; 1]] ["a"; "b"] 0
  = Ok [("a", 1); ("b", 0)]
  /\ find_similar [[1; 0]] [[1; 0]; [0; 1]] ["a"; "b"] (-1)
     = Ok [("a", 1)].
Proof. split; reflexivity. Qed.








(** C10: on a well-shaped non-empty input, [top_n = 0] gives the same result
    as [top_n = N]: all N corpus entries, each with its score, in
    non-increasing order of score. *)
Theorem find_similar_top_n_zero_returns_all (q : vector) (m : matrix)
    (corpus : list string) (d : string * Q) :
  well_shaped q m -> length corpus = length m ->
  find_similar [q] m corpus 0
  = find_similar [q] m corpus (Z.of_nat (length m))
  /\ exists res,
       find_similar [q] m corpus 0 = Ok res
       /\ length res = length m
       /\ Permutation res (combine corpus (scores q m))
       /\ forall i, (S i < length res)%nat ->
            snd (nth (S i) res d) <= snd (nth i res d).
Proof.
  intros Hw Hc.
  assert (forall n idx, In idx (top_indices (scores q m) n) ->
                        (idx < length corpus)%nat) as Hin.
  { intros n idx H. apply top_indices_In in H.
    rewrite scores_length in H. lia. }
  assert (top_indices (scores q m) 0 = rev (argsort (scores q m))) as E0.
  { unfold top_indices. simpl. now rewrite slice_from_zero. }
  assert (top_indices (scores q m) (Z.of_nat (length m))
          = rev (argsort (scores q m))) as EN.
  { unfold top_indices. rewrite slice_from_neg_all; [reflexivity|].
    rewrite argsort_length, scores_length. lia. }
  split.
  - rewrite (find_similar_ok q m corpus 0 Hw (Hin _)).
    rewrite (find_similar_ok q m corpus _ Hw (Hin _)).
    now rewrite E0, EN.
  - eexists. split; [exact (find_similar_ok q m corpus 0 Hw (Hin _))|].
    split; [|split].
    + now rewrite ranked_length, E0, length_rev, argsort_length,
        scores_length.
    + rewrite <- ranked_seq by now rewrite scores_length.
      apply Permutation_map. rewrite E0, <- Permutation_rev.
      apply argsort_perm.
    + intros i Hi. rewrite ranked_length in Hi.
      apply ranked_nonincreasing. lia.
Qed.

Lemma find_similar_top_n_zero_returns_all_witness :
  find_similar [[1; 0]] [[0; 1]; [1; 0]] ["a"; "b"] 0
  = find_similar [[1; 0]] [[0; 1]; [1; 0]] ["a"; "b"] 2
  /\ exists res,
       find_similar [[1; 0]] [[0; 1]; [1; 0]] ["a"; "b"] 0 = Ok res
       /\ length res = 2%nat
       /\ Permutation res (combine ["a"; "b"] (scores [1; 0] [[0; 1]; [1; 0]]))
       /\ forall i, (S i < length res)%nat ->
            snd (nth (S i) res ("", 0)) <= snd (nth i res ("", 0)).
Proof.
  apply (find_similar_top_n_zero_returns_all
           [1; 0] [[0; 1]; [1; 0]] ["a"; "b"] ("", 0)).
  - repeat split; [discriminate|discriminate|repeat constructor].
  - reflexivity.
Defined.

(** * Further properties of the retriever *)

Lemma StronglySorted_app_inv {A : Type} (R : A -> A -> Prop)
    (l1 l2 : list A) :
  StronglySorted R (l1 ++ l2) ->
  forall x y, In x l1 -> In y l2 -> R x y.
Proof.
  induction l1 as [|a l1 IH]; simpl; intros H x y Hx Hy; [easy|].
  apply StronglySorted_inv in H as [Hs Ha]. destruct Hx as [<-|Hx].
  - rewrite Forall_forall in Ha. apply Ha, in_or_app. now right.
  - now apply IH.
Qed.

Lemma argsort_NoDup (sims : list Q) : NoDup (argsort sims).
Proof.
  apply (Permutation_NoDup (Permutation_sym (argsort_perm sims))).
  apply seq_NoDup.
Qed.

Lemma top_indices_NoDup (sims : list Q) (top_n : Z) :
  NoDup (top_indices sims top_n).
Proof.
  unfold top_indices. apply NoDup_rev.
  destruct (slice_from_skipn (- top_n) (argsort sims)) as [k ->].
  pose proof (argsort_NoDup sims) as H.
  rewrite <- (firstn_skipn k (argsort sims)) in H.
  now apply NoDup_app_remove_l in H.
Qed.

(** The selection is a prefix of the full descending ranking. *)
Lemma top_indices_firstn (sims : list Q) (top_n : Z) :
  top_indices sims top_n
  = firstn (selected_count (length sims) top_n) (rev (argsort sims)).
Proof.
  unfold top_indices, slice_from, selected_count.
  rewrite firstn_rev, argsort_length. do 2 f_equal.
  destruct (0 <? top_n)%Z eqn:Ep; destruct (- top_n <? 0)%Z eqn:En;
    try apply Z.ltb_lt in Ep; try apply Z.ltb_ge in Ep;
    try apply Z.ltb_lt in En; try apply Z.ltb_ge in En; lia.
Qed.

(** The indices left out come before the selected ones in [argsort]. *)
Lemma top_indices_split (sims : list Q) (top_n : Z) :
  exists low, argsort sims = low ++ rev (top_indices sims top_n).
Proof.
  unfold top_indices. rewrite rev_involutive.
  destruct (slice_from_skipn (- top_n) (argsort sims)) as [k ->].
  exists (firstn k (argsort sims)). now rewrite firstn_skipn.
Qed.

(** X1: each result is the text of a corpus position paired with the score
    of the matrix row at the same position, and no position occurs twice. *)
Theorem find_similar_distinct_rows (q : vector) (m : matrix)
    (corpus : list string) (top_n : Z) (res : list (string * Q)) :
  find_similar [q] m corpus top_n = Ok res ->
  exists ti,
    NoDup ti
    /\ (forall idx, In idx ti ->
          (idx < length m)%nat /\ (idx < length corpus)%nat)
    /\ res = map (fun idx => (nth idx corpus EmptyString,
                              cosine q (nth idx m []))) ti.
Proof.
  intros H. apply find_similar_inv in H as (_ & -> & Hc).
  exists (top_indices (scores q m) top_n).
  assert (forall idx, In idx (top_indices (scores q m) top_n) ->
                      (idx < length m)%nat) as Hm.
  { intros idx Hin. apply top_indices_In in Hin.
    now rewrite scores_length in Hin. }
  split; [apply top_indices_NoDup|]. split; [now split; auto|].
  unfold ranked. apply map_ext_in. intros idx Hin.
  now rewrite scores_nth by auto.
Qed.

Lemma find_similar_distinct_rows_witness :
  exists ti,
    NoDup ti
    /\ (forall idx, In idx ti ->
          (idx < length [[1; 0]; [0; 1]])%nat
          /\ (idx < length ["a"; "b"])%nat)
    /\ [("a", 1); ("b", 0)]
       = map (fun idx => (nth idx ["a"; "b"] EmptyString,
                          cosine [1; 0] (nth idx [[1; 0]; [0; 1]] []))) ti.
Proof.
  apply (find_similar_distinct_rows [1; 0] [[1; 0]; [0; 1]] ["a"; "b"] 2).
  reflexivity.
Defined.

(** X2: the rows that are returned are the best ones: a row whose index is
    not selected scores no more than any returned result. *)
Theorem find_similar_keeps_highest (q : vector) (m : matrix)
    (corpus : list string) (top_n : Z) (res : list (string * Q)) :
  find_similar [q] m corpus top_n = Ok res ->
  forall j, (j < length m)%nat ->
    ~ In j (top_indices (scores q m) top_n) ->
    forall p, In p res -> cosine q (nth j m []) <= snd p.
Proof.
  intros H j Hj Hout p Hp. apply find_similar_inv in H as (_ & -> & _).
  unfold ranked in Hp. apply in_map_iff in Hp as (i & <- & Hi). simpl.
  rewrite <- scores_nth by exact Hj. apply idx_lt_le.
  destruct (top_indices_split (scores q m) top_n) as [low E].
  pose proof (argsort_sorted (scores q m)) as Hs. rewrite E in Hs.
  apply (StronglySorted_app_inv _ _ _ Hs); [|exact (proj1 (in_rev _ _) Hi)].
  assert (In j (argsort (scores q m))) as Hin
    by (apply argsort_In; now rewrite scores_length).
  rewrite E in Hin. apply in_app_or in Hin as [Hin|Hin]; [exact Hin|].
  apply (proj2 (in_rev _ _)) in Hin. contradiction.
Qed.

Lemma find_similar_keeps_highest_witness :
  cosine [1; 0] (nth 1 [[1; 0]; [0; 1]; [1; 1]] []) <= snd ("c", 1 # 2).
Proof.
  apply (find_similar_keeps_highest
           [1; 0] [[1; 0]; [0; 1]; [1; 1]] ["a"; "b"; "c"] 2
           [("a", 1); ("c", 1 # 2)]).
  - reflexivity.
  - simpl. lia.
  - vm_compute. intros [H|[H|[]]]; discriminate H.
  - right. now left.
Defined.

(** X3: asking for fewer results gives a prefix: for [0 < k <= k'], the
    result for [top_n = k] is the first [k] entries of the result for
    [top_n = k']. *)
Theorem find_similar_prefix (q : vector) (m : matrix)
    (corpus : list string) (k k' : Z) (res' : list (string * Q)) :
  (0 < k <= k')%Z ->
  find_similar [q] m corpus k' = Ok res' ->
  find_similar [q] m corpus k = Ok (firstn (Z.to_nat k) res').
Proof.
  intros Hk H. apply find_similar_inv in H as (Hw & -> & Hc).
  assert (top_indices (scores q m) k
          = firstn (Z.to_nat k) (top_indices (scores q m) k')) as E.
  { rewrite !top_indices_firstn, firstn_firstn. f_equal.
    unfold selected_count.
    destruct (0 <? k)%Z eqn:E1; [|apply Z.ltb_ge in E1; lia].
    destruct (0 <? k')%Z eqn:E2; [|apply Z.ltb_ge in E2; lia].
    lia. }
  rewrite find_similar_ok; [|exact Hw|].
  - unfold ranked. now rewrite E, firstn_map.
  - intros idx Hin. rewrite E in Hin. apply Hc.
    rewrite <- (firstn_skipn (Z.to_nat k) (top_indices (scores q m) k')).
    apply in_or_app. now left.
Qed.

Lemma find_similar_prefix_witness :
  find_similar [[1; 0]] [[1; 0]; [0; 1]; [1; 1]] ["a"; "b"; "c"] 1
  = Ok (firstn (Z.to_nat 1) [("a", 1); ("c", 1 # 2); ("b", 0)]).
Proof.
  apply (find_similar_prefix
           [1; 0] [[1; 0]; [0; 1]; [1; 1]] ["a"; "b"; "c"] 1 5).
  - lia.
  - reflexivity.
Defined.

(** X4: a negative [top_n = -k] drops the [k] lowest-scoring rows: the
    result is the first [N - k] entries of the full ranking (the result for
    [top_n = 0]), hence empty as soon as [k >= N]. *)
Theorem find_similar_negative_top_n (q : vector) (m : matrix)
    (corpus : list string) (k : Z) (full : list (string * Q)) :
  (0 < k)%Z ->
  find_similar [q] m corpus 0 = Ok full ->
  find_similar [q] m corpus (- k)
  = Ok (firstn (length m - Z.to_nat k) full).
Proof.
  intros Hk H. apply find_similar_inv in H as (Hw & -> & Hc).
  assert (top_indices (scores q m) (- k)
          = firstn (length m - Z.to_nat k) (top_indices (scores q m) 0))
    as E.
  { rewrite !top_indices_firstn, firstn_firstn, scores_length. f_equal.
    unfold selected_count.
    destruct (0 <? - k)%Z eqn:E1; [apply Z.ltb_lt in E1; lia|].
    simpl. rewrite Z.opp_involutive. lia. }
  rewrite find_similar_ok; [|exact Hw|].
  - unfold ranked. now rewrite E, firstn_map.
  - intros idx Hin. rewrite E in Hin. apply Hc.
    rewrite <- (firstn_skipn (length m - Z.to_nat k)
                  (top_indices (scores q m) 0)).
    apply in_or_app. now left.
Qed.

Lemma find_similar_negative_top_n_witness :
  find_similar [[1; 0]] [[1; 0]; [0; 1]; [1; 1]] ["a"; "b"; "c"] (- (2))
  = Ok (firstn (length [[1; 0]; [0; 1]; [1; 1]] - Z.to_nat 2)
          [("a", 1); ("c", 1 # 2); ("b", 0)]).
Proof.
  apply (find_similar_negative_top_n
           [1; 0] [[1; 0]; [0; 1]; [1; 1]] ["a"; "b"; "c"] 2).
  - lia.
  - reflexivity.
Defined.

(** ** The range of the scores *)










(** ** Scaling the query *)








(** ** The callers: the top match *)

Lemma comprehension_length {A B : Type} (f : A -> result B) (l : list A)
    (bs : list B) :
  comprehension f l = Ok bs -> length bs = length l.
Proof.
  revert bs. induction l as [|a l IH]; intros bs; simpl.
  - now intros [= <-].
  - destruct (f a) as [b|e]; simpl; [|discriminate].
    destruct (comprehension f l) as [bs'|e]; simpl; [|discriminate].
    intros [= <-]. simpl. f_equal. now apply IH.
Qed.

Lemma comprehension_ext {A B : Type} (f g : A -> result B) (l : list A) :
  (forall a, In a l -> f a = g a) ->
  comprehension f l = comprehension g l.
Proof.
  induction l as [|a l IH]; intros H; simpl; [reflexivity|].
  rewrite (H a) by now left.
  rewrite IH by (intros x Hx; apply H; now right). reflexivity.
Qed.






(** When the validation accepts the matrices, the flattened kernel has one
    score per pair of rows, and at least one. *)
Lemma cosine_similarity_flatten (X Y : matrix) (k : list (list Q)) :
  cosine_similarity X Y = Ok k ->
  X <> [] /\ Y <> [] /\ length (flatten k) = (length X * length Y)%nat.
Proof.
  unfold cosine_similarity, check_pairwise_arrays.
  destruct (check_array X) as [X'|] eqn:EX; simpl; [|discriminate].
  destruct (check_array Y) as [Y'|] eqn:EY; simpl; [|discriminate].
  apply check_array_inv in EX as (-> & HX & _).
  apply check_array_inv in EY as (-> & HY & _).
  destruct (negb _); simpl; [discriminate|]. intros [= <-].
  split; [exact HX|]. split; [exact HY|].
  unfold flatten. clear. induction X as [|x X IH]; simpl; [reflexivity|].
  now rewrite length_app, length_map, IH.
Qed.

(** X10: the callers' [results[0]] never fails on its own: the top match
    raises exactly when [find_similar] with the default [top_n] does, with
    the same exception; a returned result list is never empty. *)
Theorem top_match_raises_iff (query_vec embeddings : matrix)
    (corpus : list string) (e : exn) :
  top_match query_vec embeddings corpus = Raise e
  <-> find_similar query_vec embeddings corpus default_top_n = Raise e.
Proof.
  unfold top_match.
  destruct (find_similar query_vec embeddings corpus default_top_n)
    as [res|e'] eqn:E; cbn [bind];
    [|split; intros [= ->]; reflexivity].
  split; [|discriminate].
  unfold find_similar in E.
  destruct (cosine_similarity query_vec embeddings) as [k|] eqn:Ek;
    [|discriminate].
  cbn [bind] in E. apply comprehension_length in E.
  apply cosine_similarity_flatten in Ek as (HX & HY & Hlen).
  rewrite top_indices_length in E by reflexivity.
  destruct res as [|p res]; [|discriminate].
  intros _. exfalso. simpl in E.
  destruct query_vec; [congruence|]. destruct embeddings; [congruence|].
  simpl in Hlen. unfold default_top_n in E. lia.
Qed.



(** X12: corpus texts beyond the number of matrix rows are never read: the
    call behaves as on the corpus cut to the first N texts. *)
Theorem find_similar_ignores_extra_texts (q : vector) (m : matrix)
    (corpus : list string) (top_n : Z) :
  find_similar [q] m corpus top_n
  = find_similar [q] m (firstn (length m) corpus) top_n.
Proof.
  destruct (cosine_similarity [q] m) as [k|e] eqn:Ek.
  - apply cosine_similarity_one_row_inv in Ek as [Hw _].
    rewrite !find_similar_unfold by exact Hw.
    apply comprehension_ext. intros idx Hin.
    apply top_indices_In in Hin. rewrite scores_length in Hin.
    unfold result_entry, getitem. rewrite nth_error_firstn.
    apply Nat.ltb_lt in Hin. now rewrite Hin.
  - unfold find_similar. now rewrite Ek.
Qed.

(** * The averaged word-vector embedding *)

Lemma known_vectors_In (model : dict) (words : list str) (v : vector) :
  In v (known_vectors model words)
  <-> exists w, In w words /\ dict_get model w = Some v.
Proof.
  unfold known_vectors. rewrite in_flat_map. split.
  - intros (w & Hw & Hv). exists w. split; [exact Hw|].
    destruct (dict_get model w) as [u|]; [|easy].
    destruct Hv as [->|[]]. reflexivity.
  - intros (w & Hw & Hv). exists w. split; [exact Hw|].
    rewrite Hv. now left.
Qed.

Lemma known_vectors_nil (model : dict) (words : list str) :
  known_vectors model words = []
  <-> forall w, In w words -> dict_get model w = None.
Proof.
  split.
  - intros E w Hw. destruct (dict_get model w) as [v|] eqn:Ev; [|reflexivity].
    assert (In v (known_vectors model words)) as Hin
      by (apply known_vectors_In; eauto).
    rewrite E in Hin. destruct Hin.
  - intros H. destruct (known_vectors model words) as [|v vs] eqn:E;
      [reflexivity|].
    assert (In v (known_vectors model words)) as Hin by (rewrite E; now left).
    apply known_vectors_In in Hin as (w & Hw & Hv).
    rewrite (H w Hw) in Hv. discriminate.
Qed.

Lemma split_from_whitespace (text : str) :
  Forall (fun c => isspace c = true) text -> split_from [] text = [].
Proof.
  induction 1 as [|c text Hc _ IH]; simpl; [reflexivity|].
  now rewrite Hc.
Qed.

Lemma row_norm_sq_zeros (n : nat) : row_norm_sq (repeat 0 n) == 0.
Proof.
  unfold row_norm_sq. induction n as [|n IH]; simpl; [reflexivity|].
  rewrite IH. ring.
Qed.

(** X13: a text none of whose words is in the model (an empty text, a text
    of whitespace only, a text of unknown words) is embedded as the zero
    vector of length [vector_size], which has zero magnitude. *)
Theorem get_w2v_embedding_no_known_word (text : str) (model : dict)
    (vector_size : nat) :
  (forall w, In w (split text) -> dict_get model w = None) ->
  get_w2v_embedding text model vector_size = Ok (repeat 0 vector_size)
  /\ length (repeat 0 vector_size) = vector_size
  /\ row_norm_sq (repeat 0 vector_size) == 0.
Proof.
  intros H. apply known_vectors_nil in H. unfold get_w2v_embedding.
  rewrite H. split; [reflexivity|].
  split; [apply repeat_length|apply row_norm_sq_zeros].
Qed.

Lemma get_w2v_embedding_no_known_word_witness :
  get_w2v_embedding [32; 122; 10]%N [([97]%N, [1; 2])] 3 = Ok [0; 0; 0]
  /\ length (repeat 0 3) = 3%nat
  /\ row_norm_sq (repeat 0 3) == 0.
Proof.
  apply (get_w2v_embedding_no_known_word [32; 122; 10]%N [([97]%N, [1; 2])] 3).
  intros w [<-|[]]. reflexivity.
Defined.

Lemma vadd_length (u v : vector) :
  length u = length v -> length (vadd u v) = length u.
Proof.
  revert v. induction u as [|x u IH]; intros [|y v] H; simpl in *;
    try reflexivity; try discriminate.
  f_equal. apply IH. now injection H.
Qed.


Lemma fold_left_vadd_length (vs : list vector) (v : vector) :
  Forall (fun u => length u = length v) vs ->
  length (fold_left vadd vs v) = length v.
Proof.
  revert v. induction vs as [|u vs IH]; intros v H; simpl; [reflexivity|].
  apply Forall_cons_iff in H as [Hu H].
  rewrite IH; rewrite (vadd_length v u (eq_sym Hu)).
  - reflexivity.
  - exact H.
Qed.



Lemma mean_axis0_ok (v : vector) (vs : list vector) :
  Forall (fun u => length u = length v) vs ->
  mean_axis0 v vs
  = Ok (map (fun x => x / inject_Z (Z.of_nat (S (length vs))))
          (fold_left vadd vs v)).
Proof.
  intros H. unfold mean_axis0.
  assert (forallb (fun u => Nat.eqb (length u) (length v)) vs = true) as ->;
    [|reflexivity].
  rewrite forallb_forall. rewrite Forall_forall in H.
  intros u Hu. now apply Nat.eqb_eq, H.
Qed.

(** X14: when every vector of the model has dimension D, a text with at
    least one known word is embedded as a vector of dimension D, whatever
    [vector_size] is; [vector_size] only sets the dimension of the fallback
    for texts without a known word. *)
Theorem get_w2v_embedding_dimension (text : str) (model : dict)
    (vector_size D : nat) (w : str) :
  (forall w' v, dict_get model w' = Some v -> length v = D) ->
  In w (split text) -> dict_get model w <> None ->
  exists r, get_w2v_embedding text model vector_size = Ok r /\ length r = D.
Proof.
  intros HD Hw Hknown. unfold get_w2v_embedding.
  assert (forall v, In v (known_vectors model (split text)) -> length v = D)
    as Hlen.
  { intros v Hv. apply known_vectors_In in Hv as (w' & _ & Hv). eauto. }
  destruct (known_vectors model (split text)) as [|v vs] eqn:E.
  - exfalso. apply Hknown.
    now apply (proj1 (known_vectors_nil model (split text)) E).
  - assert (Forall (fun u => length u = length v) vs) as Hf.
    { rewrite Forall_forall. intros u Hu.
      rewrite (Hlen u), (Hlen v); [reflexivity|now left|now right]. }
    rewrite mean_axis0_ok by exact Hf. eexists. split; [reflexivity|].
    rewrite length_map, fold_left_vadd_length by exact Hf.
    apply Hlen. now left.
Qed.

Lemma get_w2v_embedding_dimension_witness :
  exists r,
    get_w2v_embedding [97; 32; 122]%N
      [([97]%N, [1; 2]); ([98]%N, [3; 5])] 300 = Ok r
    /\ length r = 2%nat.
Proof.
  apply (get_w2v_embedding_dimension [97; 32; 122]%N
           [([97]%N, [1; 2]); ([98]%N, [3; 5])] 300 2 [97]%N).
  - intros w' v. cbn [dict_get].
    repeat match goal with
           | |- context [list_eq_dec N.eq_dec ?a ?b] =>
               destruct (list_eq_dec N.eq_dec a b)
           end; intros [= <-]; reflexivity.
  - now left.
  - discriminate.
Defined.



(** * A query of several rows *)

Lemma NoDup_bounded_length (l : list nat) (n : nat) :
  NoDup l -> (forall x, In x l -> (x < n)%nat) -> (length l <= n)%nat.
Proof.
  intros Hnd Hb. rewrite <- (length_seq n 0).
  apply NoDup_incl_length; [exact Hnd|].
  intros x Hx. apply in_seq. specialize (Hb x Hx). lia.
Qed.

(** X8: [find_similar] serves one query at a time.  With a query matrix of
    two or more rows the flattened kernel has more scores than the corpus
    has texts, and as soon as [top_n] exceeds the number N of corpus texts
    the call fails with an [IndexError] at [corpus[idx]]. *)
Theorem find_similar_batch_query_fails (query_vec embeddings : matrix)
    (corpus : list string) (top_n : Z) (k : list (list Q)) :
  cosine_similarity query_vec embeddings = Ok k ->
  (2 <= length query_vec)%nat ->
  length corpus = length embeddings ->
  (Z.of_nat (length embeddings) < top_n)%Z ->
  find_similar query_vec embeddings corpus top_n = Raise IndexError.
Proof.
  intros Hk Hrows Hc Hn. unfold find_similar. rewrite Hk. cbn [bind].
  apply cosine_similarity_flatten in Hk as (_ & HY & Hlen).
  set (sims := flatten k) in *.
  destruct (comprehension (result_entry corpus sims) (top_indices sims top_n))
    as [res|e] eqn:E.
  - exfalso.
    apply comprehension_ok_inv
      with (g := fun idx => (nth idx corpus EmptyString, nth idx sims 0))
      in E; [|intros idx p Hp; now apply result_entry_inv in Hp].
    destruct E as [_ Hall].
    assert (length (top_indices sims top_n) <= length corpus)%nat as Hle.
    { apply NoDup_bounded_length; [apply top_indices_NoDup|].
      intros idx Hin. now apply Hall, result_entry_inv in Hin. }
    rewrite top_indices_length, Hlen, Hc in Hle by lia.
    assert (1 <= length embeddings)%nat
      by (destruct embeddings; [congruence|simpl; lia]).
    nia.
  - apply comprehension_raise in E as (idx & _ & E).
    now apply result_entry_raise in E as ->.
Qed.

Lemma find_similar_batch_query_fails_witness :
  find_similar [[1; 0]; [0; 1]] [[1; 0]; [0; 1]] ["a"; "b"] 5
  = Raise IndexError.
Proof.
  apply (find_similar_batch_query_fails
           [[1; 0]; [0; 1]] [[1; 0]; [0; 1]] ["a"; "b"] 5
           [[1; 0]; [0; 1]]).
  - reflexivity.
  - simpl. lia.
  - reflexivity.
  - reflexivity.
Defined.

(** * Word order in the averaged embedding *)








(** * Scaling the rows, and a query taken from the corpus *)








